(** * mdfham2m: band-limit patch and checksum repair for SM50 MDF files

    A shallow embedding of [mdfham2m.py].  Buffers ([bytes], [bytearray])
    are lists of [Byte.byte]; Python integers are [Z]; the index loop of
    [fixup_checksum] runs over [range(len(replaced))] and updates the
    bytearray in place, which is modelled with list lookup and insert and
    an explicit exception result.  Console output ([print]) is not part of
    the model. *)

From Stdlib Require Import ZArith Lia.
From Stdlib Require Import Strings.Byte.
From stdpp Require Import base list strings.

Local Open Scope Z_scope.

(** ** Data model *)

Abbreviation bytes := (list byte).

(** The value of a byte as the unsigned integer Python sees. *)
Definition byte_val (b : byte) : Z := Z.of_N (Byte.to_N b).

(** Python exceptions the modelled code can raise. *)
Inductive exn : Set :=
| ValueError
| IndexError.

Inductive result (A : Type) : Type :=
| Ok (a : A)
| Raise (e : exn).
Arguments Ok {A} a.
Arguments Raise {A} e.

(** ** [checksum]

    [cksum = 0; for val in struct.iter_unpack('B', buffer): cksum += val[0];
     return cksum & 0xFFFF] *)
Definition checksum (buffer : bytes) : Z :=
  Z.land (fold_left (fun cksum val => cksum + byte_val val) buffer 0) 0xFFFF.

(** The specification's wording: the sum of the unsigned byte values. *)
Fixpoint byte_sum (B : bytes) : Z :=
  match B with
  | [] => 0
  | b :: B' => byte_val b + byte_sum B'
  end.

(** ** [bytes.replace(old, new, count)] and [bytes.find]

    [starts_with old buf] tells whether [old] occurs in [buf] at offset 0. *)
Fixpoint starts_with (old buf : bytes) : bool :=
  match old, buf with
  | [], _ => true
  | _ :: _, [] => false
  | o :: old', b :: buf' => Byte.eqb o b && starts_with old' buf'
  end.

(** Offset of the leftmost occurrence of [old] in [buf]. *)
Fixpoint bytes_find (old buf : bytes) {struct buf} : option nat :=
  if starts_with old buf then Some 0%nat
  else match buf with
       | [] => None
       | _ :: buf' => S <$> bytes_find old buf'
       end.

(** [buf.replace(old, new, count)] for a non-empty [old] and [count >= 0]
    (both call sites pass a non-empty literal and a positive count): the
    leftmost occurrence is replaced and the scan resumes after it, until
    [count] replacements were made or no occurrence is left. *)
Fixpoint bytes_replace (old new : bytes) (count : nat) (buf : bytes) : bytes :=
  match count with
  | O => buf
  | S count' =>
      match bytes_find old buf with
      | None => buf
      | Some k =>
          take k buf ++ new
            ++ bytes_replace old new count' (drop (k + length old) buf)
      end
  end.

(** ** [replace_band_limits]

    [return buffer.replace(b'\xDC\x05\xA4\x06', b'\xA0\x05\x68\x06', 3)] *)
Definition band_150_170 : bytes := [xdc; x05; xa4; x06].
Definition band_144_164 : bytes := [xa0; x05; x68; x06].

Definition replace_band_limits (buffer : bytes) : bytes :=
  bytes_replace band_150_170 band_144_164 3 buffer.

(** ** [fixup_checksum] *)

(** [original = b'ALL RIGHTS RESERVED'] *)
Definition original : bytes :=
  String.list_byte_of_string "ALL RIGHTS RESERVED".

(** [replaced[i] += change] on a bytearray: the sum is computed as an
    integer and stored back; a bytearray refuses values outside
    [range(0, 256)] with [ValueError], and an index past the end with
    [IndexError]. *)
Definition bytearray_iadd (replaced : bytes) (i : nat) (change : Z)
  : result bytes :=
  match replaced !! i with
  | None => Raise IndexError
  | Some b =>
      let v := byte_val b + change in
      if (0 <=? v) && (v <? 256) then
        match Byte.of_N (Z.to_N v) with
        | Some b' => Ok (<[i:=b']> replaced)
        | None => Raise ValueError
        end
      else Raise ValueError
  end.

(** [min(32, difference)] when the difference is positive, otherwise
    [max(-32, difference)]. *)
Definition change_for (difference : Z) : Z :=
  if difference >? 0 then Z.min 32 difference else Z.max (-32) difference.

(** The body of [for i in range(len(replaced))], run over the remaining
    indices, with [replaced] and [difference] as the loop state. *)
Fixpoint perturb_loop (indices : list nat) (replaced : bytes) (difference : Z)
  : result (bytes * Z) :=
  match indices with
  | [] => Ok (replaced, difference)
  | i :: indices' =>
      if difference =? 0 then Ok (replaced, difference)        (* break *)
      else
        match replaced !! i with
        | None => Raise IndexError
        | Some b =>
            if byte_val b =? 32 then
              perturb_loop indices' replaced difference        (* continue *)
            else
              let change := change_for difference in
              match bytearray_iadd replaced i change with
              | Ok replaced' =>
                  perturb_loop indices' replaced' (difference - change)
              | Raise e => Raise e
              end
        end
  end.

Definition fixup_checksum (buffer : bytes) (original_checksum : Z)
  : result bytes :=
  let new_checksum := checksum buffer in
  let difference := original_checksum - new_checksum in
  match perturb_loop (seq 0 (length original)) original difference with
  | Ok (replaced, _) => Ok (bytes_replace original replaced 1 buffer)
  | Raise e => Raise e
  end.

(** ** The script body ([if __name__ == '__main__'])

    The operating system is seen through what the script asks of it: path
    resolution, the content of the regular file at a path (absent when
    nothing exists there), and the name [NamedTemporaryFile] picks inside a
    directory.  A run yields how the process ends and the file-system
    operations it performed, in order. *)
Record os_env : Type := {
  abspath : string -> string;
  dirname : string -> string;
  files : string -> option bytes;
  tempname : string -> string
}.

Inductive fs_op : Type :=
| WriteTemp (dir name : string) (data : bytes)
| Rename (src dst : string).

Inductive outcome : Type :=
| Exit (code : Z)
| Uncaught (e : exn).

Record run : Type := {
  status : outcome;
  fs_ops : list fs_op
}.

Definition main (os : os_env) (argv : list string) : run :=
  match argv with
  | [_; arg] =>
      let filename := abspath os arg in
      match files os filename with
      | None => {| status := Exit 2; fs_ops := [] |}
      | Some buffer =>
          let original_checksum := checksum buffer in
          let updated_buffer := replace_band_limits buffer in
          match fixup_checksum updated_buffer original_checksum with
          | Raise e => {| status := Uncaught e; fs_ops := [] |}
          | Ok fixed_buffer =>
              let new_checksum := checksum fixed_buffer in
              if negb (new_checksum =? original_checksum) then
                {| status := Exit 3; fs_ops := [] |}
              else
                let dir := dirname os filename in
                let new_file := tempname os dir in
                let backup_filename := (filename +:+ ".BAK")%string in
                {| status := Exit 0;
                   fs_ops := [WriteTemp dir new_file fixed_buffer;
                              Rename filename backup_filename;
                              Rename new_file filename] |}
          end
      end
  | _ => {| status := Exit 1; fs_ops := [] |}
  end.

(** ** Vocabulary of the properties *)

(** Number of offsets of [buf] at which [old] occurs. *)
Fixpoint occurrences (old buf : bytes) : nat :=
  ((if starts_with old buf then 1 else 0)
   + match buf with
     | [] => 0
     | _ :: buf' => occurrences old buf'
     end)%nat.

(** Number of bytes of [l] other than the space character. *)
Fixpoint non_space (l : bytes) : Z :=
  match l with
  | [] => 0
  | b :: l' => (if byte_val b =? 32 then 0 else 1) + non_space l'
  end.

(** A byte of the anchor text: a space or an uppercase ASCII letter. *)
Definition anchor_byte (b : byte) : Prop :=
  byte_val b = 32 \/ 65 <= byte_val b <= 90.

(** Left-to-right substitution as the specification words it: scan the
    buffer; at an occurrence of the needle, while replacements remain, put
    the replacement and resume after the occurrence; otherwise keep the
    byte.  Once [n] occurrences were replaced the rest is kept as it is. *)
Inductive subst_scan (needle repl : bytes) : nat -> bytes -> bytes -> Prop :=
| scan_exhausted buf :
    subst_scan needle repl 0 buf buf
| scan_end n :
    subst_scan needle repl n [] []
| scan_hit n rest out :
    subst_scan needle repl n rest out ->
    subst_scan needle repl (S n) (needle ++ rest) (repl ++ out)
| scan_miss n b rest out :
    starts_with needle (b :: rest) = false ->
    subst_scan needle repl (S n) rest out ->
    subst_scan needle repl (S n) (b :: rest) (b :: out).

(** ** The loop as a traversal

    [perturb] walks the not yet visited bytes of the anchor copy; on anchor
    bytes it computes what the index loop computes ([perturb_loop_traverse]). *)
Definition byte_add (b : byte) (change : Z) : byte :=
  default b (Byte.of_N (Z.to_N (byte_val b + change))).

Fixpoint perturb (rest : bytes) (difference : Z) : bytes * Z :=
  match rest with
  | [] => ([], difference)
  | b :: rest' =>
      if difference =? 0 then (rest, difference)
      else if byte_val b =? 32 then
        let '(r, d) := perturb rest' difference in (b :: r, d)
      else
        let change := change_for difference in
        let '(r, d) := perturb rest' (difference - change) in
        (byte_add b change :: r, d)
  end.

(** Boolean form of [anchor_byte], to check the anchor by evaluation. *)
Definition anchor_byteb (b : byte) : bool :=
  (byte_val b =? 32) || ((65 <=? byte_val b) && (byte_val b <=? 90)).

(** ** Sample buffers *)

(** A small file image: a header, the band limits three times, the
    copyright text once. *)
Definition sample_mdf : bytes :=
  [x4d; x44; x46] ++ band_150_170 ++ [x00] ++ band_150_170
    ++ original ++ band_150_170 ++ [xff].

(** The same image without the copyright text. *)
Definition sample_no_anchor : bytes :=
  [x4d; x44; x46] ++ band_150_170 ++ [x00] ++ band_150_170
    ++ band_150_170 ++ [xff].

(** An image holding the copyright text twice. *)
Definition sample_two_anchors : bytes :=
  [x4d] ++ original ++ [x00] ++ original ++ [xff].

(** An image with the band limits once and the copyright text once whose
    byte sum is exactly 65536, so that its 16-bit checksum is 0. *)
Definition sample_wrapping : bytes :=
  replicate 250 xff ++ [x25] ++ band_150_170 ++ original.

(** Two bytes that a rewrite may exchange without touching the occurrences
    of a needle whose bytes all satisfy [P]: equal, or neither of them
    satisfies [P]. *)
Definition same_outside (P : byte -> bool) (x y : byte) : Prop :=
  x = y \/ (P x = false /\ P y = false).

(** The values a byte of the copyright text can take before and after the
    repair: from the space (32) up to 90 + 32 = 122. *)
Definition text_range (b : byte) : bool :=
  (32 <=? byte_val b) && (byte_val b <=? 122).

Definition outside_text_range (b : byte) : bool := negb (text_range b).

(** A directory [/rss] holding one file, [SM50.MDF], with the given
    content. *)
Definition sample_os (content : bytes) : os_env :=
  {| abspath := fun p => ("/rss/" +:+ p)%string;
     dirname := fun _ => "/rss"%string;
     files := fun p => if String.eqb p "/rss/SM50.MDF" then Some content else None;
     tempname := fun d => (d +:+ "/tmp0")%string |}.

(** ** Checksum arithmetic *)

Lemma byte_val_range (b : byte) : 0 <= byte_val b <= 255.
Proof.
  unfold byte_val. pose proof (Byte.to_N_bounded b). lia.
Qed.

Lemma fold_checksum_acc (B : bytes) (acc : Z) :
  fold_left (fun cksum val => cksum + byte_val val) B acc = acc + byte_sum B.
Proof.
  revert acc. induction B as [|b B IH]; intros acc; simpl.
  - lia.
  - rewrite IH. lia.
Qed.

Lemma checksum_byte_sum (B : bytes) : checksum B = byte_sum B mod 65536.
Proof.
  unfold checksum. rewrite fold_checksum_acc.
  change 0xFFFF with (Z.ones 16).
  rewrite Z.land_ones by lia. reflexivity.
Qed.

Lemma byte_sum_app (a b : bytes) : byte_sum (a ++ b) = byte_sum a + byte_sum b.
Proof.
  induction a as [|x a IH]; simpl; lia.
Qed.

(** ** Searching *)

Lemma starts_with_prefix (old buf : bytes) :
  starts_with old buf = true <-> exists rest, buf = old ++ rest.
Proof.
  revert buf. induction old as [|o old IH]; intros buf; simpl.
  - split; [intros _; exists buf; reflexivity | reflexivity].
  - destruct buf as [|b buf].
    + split; [discriminate | intros [rest H]; discriminate].
    + rewrite andb_true_iff, IH. split.
      * intros [Hb [rest ->]]. apply Byte.byte_dec_bl in Hb. subst.
        exists rest. reflexivity.
      * intros [rest H]. injection H as -> ->. split.
        -- apply Byte.byte_dec_lb. reflexivity.
        -- exists rest. reflexivity.
Qed.

Lemma starts_with_app (old rest : bytes) : starts_with old (old ++ rest) = true.
Proof.
  apply starts_with_prefix. exists rest. reflexivity.
Qed.

Lemma bytes_find_Some (old buf : bytes) (k : nat) :
  bytes_find old buf = Some k ->
  buf = take k buf ++ old ++ drop (k + length old) buf.
Proof.
  revert k. induction buf as [|b buf IH]; intros k; simpl.
  - destruct (starts_with old []) eqn:E; [|discriminate].
    intros [= <-]. apply starts_with_prefix in E as [rest E].
    destruct old; [reflexivity | discriminate].
  - destruct (starts_with old (b :: buf)) eqn:E.
    + intros [= <-]. apply starts_with_prefix in E as [rest E].
      rewrite E. simpl. rewrite drop_app_length. reflexivity.
    + destruct (bytes_find old buf) as [j|] eqn:F; [|discriminate].
      simpl. intros [= <-]. simpl. f_equal. apply IH. reflexivity.
Qed.

Lemma bytes_find_None (old buf : bytes) :
  bytes_find old buf = None <-> occurrences old buf = 0%nat.
Proof.
  induction buf as [|b buf IH]; simpl.
  - destruct (starts_with old []); split; intros H; try discriminate; reflexivity.
  - destruct (starts_with old (b :: buf)).
    + split; intros H; discriminate.
    + destruct (bytes_find old buf); simpl.
      * split; [discriminate|]. intros H. apply IH in H. discriminate.
      * split; [|reflexivity]. intros _. apply IH. reflexivity.
Qed.

Lemma occurrences_find (old buf : bytes) :
  (0 < occurrences old buf)%nat -> exists k, bytes_find old buf = Some k.
Proof.
  intros H. destruct (bytes_find old buf) as [k|] eqn:F.
  - exists k. reflexivity.
  - apply bytes_find_None in F. lia.
Qed.

(** ** Replacing *)

Lemma bytes_replace_length (old new : bytes) (count : nat) (buf : bytes) :
  length old = length new ->
  length (bytes_replace old new count buf) = length buf.
Proof.
  intros Hlen. revert buf. induction count as [|count IH]; intros buf; simpl.
  - reflexivity.
  - destruct (bytes_find old buf) as [k|] eqn:F; [|reflexivity].
    apply bytes_find_Some in F. apply (f_equal length) in F.
    rewrite !length_app in F. rewrite !length_app, IH. lia.
Qed.

Lemma bytes_replace_same (old : bytes) (count : nat) (buf : bytes) :
  bytes_replace old old count buf = buf.
Proof.
  revert buf. induction count as [|count IH]; intros buf; simpl.
  - reflexivity.
  - destruct (bytes_find old buf) as [k|] eqn:F; [|reflexivity].
    rewrite IH. symmetry. apply bytes_find_Some. exact F.
Qed.

Lemma bytes_replace_absent (old new : bytes) (count : nat) (buf : bytes) :
  bytes_find old buf = None -> bytes_replace old new count buf = buf.
Proof.
  intros F. destruct count; simpl; [reflexivity|]. rewrite F. reflexivity.
Qed.

Lemma bytes_replace_once (old new buf : bytes) (k : nat) :
  bytes_find old buf = Some k ->
  bytes_replace old new 1 buf = take k buf ++ new ++ drop (k + length old) buf.
Proof.
  intros F. simpl. rewrite F. reflexivity.
Qed.

Lemma bytes_replace_once_sum (old new buf : bytes) (k : nat) :
  bytes_find old buf = Some k ->
  byte_sum (bytes_replace old new 1 buf)
  = byte_sum buf + byte_sum new - byte_sum old.
Proof.
  intros F. rewrite (bytes_replace_once _ _ _ _ F).
  apply bytes_find_Some in F. apply (f_equal byte_sum) in F.
  rewrite !byte_sum_app in F. rewrite !byte_sum_app. lia.
Qed.

(** ** The clamped change *)

Lemma change_for_bounds (d : Z) : -32 <= change_for d <= 32.
Proof.
  unfold change_for. destruct (Z.gtb_spec d 0); lia.
Qed.

Lemma change_for_towards (d : Z) :
  d <> 0 ->
  change_for d <> 0 /\ Z.abs (d - change_for d) = Z.abs d - Z.abs (change_for d)
  /\ (Z.abs d <= 32 -> change_for d = d)
  /\ (32 <= Z.abs d -> Z.abs (change_for d) = 32).
Proof.
  intros Hd. unfold change_for. destruct (Z.gtb_spec d 0); lia.
Qed.

Lemma byte_of_val (v : Z) :
  0 <= v < 256 ->
  exists b, Byte.of_N (Z.to_N v) = Some b /\ byte_val b = v.
Proof.
  intros Hv. destruct (Byte.of_N (Z.to_N v)) as [b|] eqn:E.
  - exists b. split; [reflexivity|].
    apply Byte.to_of_N in E. unfold byte_val. rewrite E. lia.
  - apply Byte.of_N_None_iff in E. lia.
Qed.

Lemma byte_add_val (b : byte) (change : Z) :
  0 <= byte_val b + change < 256 ->
  byte_val (byte_add b change) = byte_val b + change.
Proof.
  intros Hv. unfold byte_add.
  destruct (byte_of_val _ Hv) as [b' [-> Hb']]. exact Hb'.
Qed.

Lemma anchor_byte_add (b : byte) (d : Z) :
  anchor_byte b -> byte_val b <> 32 ->
  33 <= byte_val b + change_for d <= 122.
Proof.
  intros [H|H] Hn; [contradiction|].
  pose proof (change_for_bounds d). lia.
Qed.

(** ** The index loop and the traversal agree *)

Lemma bytearray_iadd_middle (pre rest : bytes) (b : byte) (change : Z) :
  0 <= byte_val b + change < 256 ->
  bytearray_iadd (pre ++ b :: rest) (length pre) change
  = Ok (pre ++ byte_add b change :: rest).
Proof.
  intros Hv. unfold bytearray_iadd.
  rewrite list_lookup_middle by reflexivity. cbv zeta.
  replace ((0 <=? byte_val b + change) && (byte_val b + change <? 256))
    with true by (symmetry; apply andb_true_iff; split; lia).
  unfold byte_add. destruct (byte_of_val _ Hv) as [b' [-> _]]. simpl.
  replace (length pre) with (length pre + 0)%nat at 1 by lia.
  rewrite insert_app_r. reflexivity.
Qed.

Lemma perturb_loop_traverse (rest pre : bytes) (d : Z) :
  Forall anchor_byte rest ->
  perturb_loop (seq (length pre) (length rest)) (pre ++ rest) d
  = Ok (pre ++ (perturb rest d).1, (perturb rest d).2).
Proof.
  intros Hrest. revert pre d.
  induction Hrest as [|b rest Hb Hrest IH]; intros pre d.
  - reflexivity.
  - cbn [length seq perturb_loop perturb].
    destruct (d =? 0) eqn:Ed; [reflexivity|].
    rewrite list_lookup_middle by reflexivity.
    specialize (IH (pre ++ [b])) as IHs.
    destruct (byte_val b =? 32) eqn:Eb.
    + specialize (IHs d). rewrite length_app in IHs. simpl in IHs.
      replace (length pre + 1)%nat with (S (length pre)) in IHs by lia.
      rewrite <- app_assoc in IHs. simpl in IHs. rewrite IHs.
      destruct (perturb rest d) as [r d']. simpl.
      rewrite <- app_assoc. reflexivity.
    + apply Z.eqb_neq in Eb.
      pose proof (anchor_byte_add b d Hb Eb) as Hv.
      rewrite bytearray_iadd_middle by lia.
      specialize (IH (pre ++ [byte_add b (change_for d)]) (d - change_for d)).
      rewrite length_app in IH. simpl in IH.
      replace (length pre + 1)%nat with (S (length pre)) in IH by lia.
      rewrite <- app_assoc in IH. simpl in IH. rewrite IH.
      destruct (perturb rest (d - change_for d)) as [r d']. simpl.
      rewrite <- app_assoc. reflexivity.
Qed.

(** ** What the traversal computes *)

Lemma perturb_length (rest : bytes) (d : Z) :
  length (perturb rest d).1 = length rest.
Proof.
  revert d. induction rest as [|b rest IH]; intros d; simpl.
  - reflexivity.
  - destruct (d =? 0); [reflexivity|].
    destruct (byte_val b =? 32).
    + specialize (IH d). destruct (perturb rest d). simpl in *. lia.
    + specialize (IH (d - change_for d)).
      destruct (perturb rest (d - change_for d)). simpl in *. lia.
Qed.

Lemma perturb_zero (rest : bytes) : perturb rest 0 = (rest, 0).
Proof.
  destruct rest; reflexivity.
Qed.

Lemma perturb_sum (rest : bytes) (d : Z) :
  Forall anchor_byte rest ->
  byte_sum (perturb rest d).1 + (perturb rest d).2 = byte_sum rest + d.
Proof.
  intros Hrest. revert d.
  induction Hrest as [|b rest Hb Hrest IH]; intros d; simpl.
  - lia.
  - destruct (d =? 0); [simpl; lia|].
    destruct (byte_val b =? 32) eqn:Eb.
    + specialize (IH d). destruct (perturb rest d). simpl in *. lia.
    + apply Z.eqb_neq in Eb.
      pose proof (anchor_byte_add b d Hb Eb) as Hv.
      specialize (IH (d - change_for d)).
      destruct (perturb rest (d - change_for d)). simpl in *.
      rewrite byte_add_val by lia. lia.
Qed.

Lemma perturb_absorbs (rest : bytes) (d : Z) :
  Z.abs d <= 32 * non_space rest -> (perturb rest d).2 = 0.
Proof.
  revert d. induction rest as [|b rest IH]; intros d; simpl.
  - lia.
  - destruct (d =? 0) eqn:Ed; [intros _; simpl; lia|].
    apply Z.eqb_neq in Ed.
    destruct (byte_val b =? 32).
    + intros H. specialize (IH d). destruct (perturb rest d).
      simpl in *. apply IH. lia.
    + intros H. specialize (IH (d - change_for d)).
      destruct (perturb rest (d - change_for d)). simpl in *. apply IH.
      destruct (change_for_towards d Ed) as (_ & Habs & Hsmall & Hbig).
      destruct (Z_le_gt_dec (Z.abs d) 32); lia.
Qed.

Lemma perturb_keeps_spaces (rest : bytes) (d : Z) (j : nat) (b : byte) :
  rest !! j = Some b -> byte_val b = 32 -> (perturb rest d).1 !! j = Some b.
Proof.
  revert d j. induction rest as [|x rest IH]; intros d j; simpl.
  - discriminate.
  - destruct (d =? 0); [simpl; intros H _; exact H|].
    destruct (byte_val x =? 32) eqn:Ex.
    + specialize (IH d). destruct (perturb rest d). simpl in *.
      destruct j as [|j]; simpl; [intros H _; exact H | apply IH].
    + apply Z.eqb_neq in Ex. specialize (IH (d - change_for d)).
      destruct (perturb rest (d - change_for d)). simpl in *.
      destruct j as [|j]; simpl; [|apply IH].
      intros [= ->] Hb. contradiction.
Qed.

(** ** The leftmost occurrence *)

Lemma bytes_find_hit (old buf : bytes) :
  starts_with old buf = true -> bytes_find old buf = Some 0%nat.
Proof.
  intros H. destruct buf; simpl; rewrite H; reflexivity.
Qed.

Lemma bytes_find_miss (old : bytes) (b : byte) (buf : bytes) :
  starts_with old (b :: buf) = false ->
  bytes_find old (b :: buf) = S <$> bytes_find old buf.
Proof.
  intros H. cbn [bytes_find]. rewrite H. reflexivity.
Qed.

Lemma starts_with_take (old buf : bytes) (n : nat) :
  starts_with old (take n buf) = true -> starts_with old buf = true.
Proof.
  rewrite !starts_with_prefix. intros [rest H].
  exists (rest ++ drop n buf). rewrite app_assoc, <- H. symmetry.
  apply take_drop.
Qed.

Lemma starts_with_short (old buf : bytes) :
  (length buf < length old)%nat -> starts_with old buf = false.
Proof.
  intros Hlen. destruct (starts_with old buf) eqn:E; [|reflexivity].
  apply starts_with_prefix in E as [rest ->].
  rewrite length_app in Hlen. lia.
Qed.

Lemma bytes_find_short (old buf : bytes) :
  (length buf < length old)%nat -> bytes_find old buf = None.
Proof.
  induction buf as [|b buf IH]; intros Hlen.
  - simpl. rewrite starts_with_short by exact Hlen. reflexivity.
  - rewrite bytes_find_miss by (apply starts_with_short; exact Hlen).
    rewrite IH by (simpl in Hlen; lia). reflexivity.
Qed.

(** No occurrence of [old] starts before the offset [bytes_find] returns. *)
Lemma bytes_find_leftmost (old buf : bytes) (k : nat) :
  old <> [] ->
  bytes_find old buf = Some k ->
  bytes_find old (take (k + length old - 1) buf) = None.
Proof.
  intros Hold. revert k. induction buf as [|b buf IH]; intros k F.
  - rewrite take_nil. apply bytes_find_short.
    destruct old; [contradiction | simpl; lia].
  - destruct (starts_with old (b :: buf)) eqn:E.
    + rewrite bytes_find_hit in F by exact E. injection F as <-.
      apply bytes_find_short. rewrite length_take.
      destruct old; [contradiction | simpl; lia].
    + rewrite bytes_find_miss in F by exact E.
      destruct (bytes_find old buf) as [j|] eqn:Fj; [|discriminate].
      injection F as <-.
      replace (S j + length old - 1)%nat with (S (j + length old - 1))
        by (destruct old; [contradiction | simpl; lia]).
      cbn [take]. rewrite bytes_find_miss.
      * rewrite (IH j) by reflexivity. reflexivity.
      * destruct (starts_with old (b :: take (j + length old - 1) buf)) eqn:E';
          [|reflexivity].
        apply (starts_with_take old (b :: buf) (S (j + length old - 1))) in E'.
        congruence.
Qed.

(** ** [bytes_replace] performs the left-to-right scan *)

Section Scan.
Variables (o : byte) (needle' repl : bytes).
Let needle := o :: needle'.

Lemma scan_no_occurrence (n : nat) (buf : bytes) :
  bytes_find needle buf = None -> subst_scan needle repl n buf buf.
Proof.
  destruct n as [|n]; [intros _; constructor|].
  induction buf as [|b buf IH]; intros F.
  - constructor.
  - destruct (starts_with needle (b :: buf)) eqn:E.
    + rewrite bytes_find_hit in F by exact E. discriminate.
    + rewrite bytes_find_miss in F by exact E.
      destruct (bytes_find needle buf); [discriminate|].
      constructor; [exact E | apply IH; reflexivity].
Qed.

Lemma scan_first_occurrence (n : nat) (buf out : bytes) (k : nat) :
  bytes_find needle buf = Some k ->
  subst_scan needle repl n (drop (k + length needle) buf) out ->
  subst_scan needle repl (S n) buf (take k buf ++ repl ++ out).
Proof.
  revert k. induction buf as [|b buf IH]; intros k F Hout.
  - discriminate.
  - destruct (starts_with needle (b :: buf)) eqn:E.
    + rewrite bytes_find_hit in F by exact E. injection F as <-.
      apply starts_with_prefix in E as [rest E]. rewrite E in Hout |- *.
      cbn [plus] in Hout. rewrite drop_app_length in Hout.
      rewrite take_0. cbn [app]. apply scan_hit. exact Hout.
    + rewrite bytes_find_miss in F by exact E.
      destruct (bytes_find needle buf) as [j|] eqn:Fj; [|discriminate].
      injection F as <-. cbn [take app].
      apply scan_miss; [exact E|]. apply IH; [reflexivity | exact Hout].
Qed.

Lemma bytes_replace_scans (n : nat) (buf : bytes) :
  subst_scan needle repl n buf (bytes_replace needle repl n buf).
Proof.
  revert buf. induction n as [|n IH]; intros buf; cbn [bytes_replace].
  - constructor.
  - destruct (bytes_find needle buf) as [k|] eqn:F.
    + apply scan_first_occurrence; [exact F | apply IH].
    + apply scan_no_occurrence. exact F.
Qed.

Lemma scan_deterministic (n : nat) (buf out : bytes) :
  subst_scan needle repl n buf out -> out = bytes_replace needle repl n buf.
Proof.
  induction 1 as [buf | n | n rest out H IH | n b rest out E H IH].
  - reflexivity.
  - destruct n; reflexivity.
  - cbn [bytes_replace].
    rewrite bytes_find_hit by apply starts_with_app.
    cbn [plus]. rewrite drop_app_length, take_0, <- IH. reflexivity.
  - cbn [bytes_replace] in IH |- *. rewrite bytes_find_miss by exact E.
    destruct (bytes_find needle rest) as [k|]; cbn [fmap option_fmap option_map].
    + cbn [take plus drop app]. rewrite IH. reflexivity.
    + rewrite IH. reflexivity.
Qed.
End Scan.

(** ** The anchor text *)

Lemma anchor_byteb_spec (b : byte) : anchor_byteb b = true -> anchor_byte b.
Proof.
  unfold anchor_byteb, anchor_byte. intros H.
  apply orb_true_iff in H as [H|H]; [left; lia | right].
  apply andb_true_iff in H. lia.
Qed.

Lemma forallb_anchor (l : bytes) :
  forallb anchor_byteb l = true -> Forall anchor_byte l.
Proof.
  induction l as [|b l IH]; simpl; intros H; [constructor|].
  apply andb_true_iff in H as [Hb Hl].
  constructor; [apply anchor_byteb_spec; exact Hb | apply IH; exact Hl].
Qed.

Lemma original_anchor : Forall anchor_byte original.
Proof.
  apply forallb_anchor. vm_compute. reflexivity.
Qed.

Lemma original_length : length original = 19%nat.
Proof. reflexivity. Qed.

Lemma perturb_loop_whole (l : bytes) (d : Z) :
  Forall anchor_byte l ->
  perturb_loop (seq 0 (length l)) l d = Ok ((perturb l d).1, (perturb l d).2).
Proof.
  intros Hl. exact (perturb_loop_traverse l [] d Hl).
Qed.

Lemma perturb_loop_original (d : Z) :
  perturb_loop (seq 0 (length original)) original d
  = Ok ((perturb original d).1, (perturb original d).2).
Proof.
  apply perturb_loop_whole, original_anchor.
Qed.

Lemma fixup_checksum_traverse (buffer : bytes) (t : Z) :
  fixup_checksum buffer t
  = Ok (bytes_replace original
          (perturb original (t - checksum buffer)).1 1 buffer).
Proof.
  unfold fixup_checksum. cbv zeta. rewrite perturb_loop_original. reflexivity.
Qed.

Lemma perturb_values (rest : bytes) (d : Z) :
  Forall anchor_byte rest ->
  Forall (fun b => byte_val b = 32 \/ 33 <= byte_val b <= 122)
    (perturb rest d).1.
Proof.
  assert (Hkeep : forall l, Forall anchor_byte l ->
            Forall (fun b => byte_val b = 32 \/ 33 <= byte_val b <= 122) l).
  { intros l Hl. eapply Forall_impl; [exact Hl|].
    intros b [Hb|Hb]; [left; exact Hb | right; lia]. }
  intros Hrest. revert d.
  induction Hrest as [|b rest Hb Hrest IH]; intros d; simpl.
  - constructor.
  - destruct (d =? 0).
    + simpl. apply Hkeep. constructor; assumption.
    + destruct (byte_val b =? 32) eqn:Eb.
      * specialize (IH d). destruct (perturb rest d). simpl in *.
        constructor; [left; lia | exact IH].
      * apply Z.eqb_neq in Eb. specialize (IH (d - change_for d)).
        destruct (perturb rest (d - change_for d)). simpl in *.
        constructor; [right | exact IH].
        pose proof (anchor_byte_add b d Hb Eb).
        rewrite byte_add_val by lia. lia.
Qed.

Lemma checksum_range (B : bytes) : 0 <= checksum B <= 65535.
Proof.
  rewrite checksum_byte_sum.
  pose proof (Z.mod_pos_bound (byte_sum B) 65536). lia.
Qed.

Lemma checksum_shift (s t : Z) :
  0 <= t <= 65535 -> (s + (t - s mod 65536)) mod 65536 = t.
Proof.
  intros Ht. pose proof (Z.div_mod s 65536).
  replace (s + (t - s mod 65536)) with (t + (s / 65536) * 65536) by lia.
  rewrite Z_mod_plus_full. apply Z.mod_small. lia.
Qed.

(** * Properties of the program *)

(** C3: for every buffer [B], the empty one included, [checksum B] is the
    sum of the unsigned byte values of [B] reduced modulo 65536 and so lies
    in [0, 65535]; the checksum of the empty buffer is 0 and the checksum
    of the bytes 01 02 FF is 258 (0x0102). *)
Theorem checksum_is_sum_mod_65536 :
  (forall B : bytes,
      checksum B = byte_sum B mod 65536 /\ 0 <= checksum B <= 65535)
  /\ checksum [] = 0
  /\ checksum [x01; x02; xff] = 258
  /\ 258 = 0x0102.
Proof.
  split; [|repeat split].
  intros B. split; [apply checksum_byte_sum | apply checksum_range].
Qed.

(** C4: [replace_band_limits] performs the left-to-right substitution of
    the 4-byte needle DC 05 A4 06 by the 4-byte sequence A0 05 68 06 with a
    bound of 3: the first three non-overlapping occurrences are replaced, a
    fourth is kept, fewer than three are all replaced without an error, and
    every byte outside a replaced occurrence is kept. *)
Theorem replace_band_limits_first_three :
  (forall buffer out : bytes,
      subst_scan band_150_170 band_144_164 3 buffer out
      <-> out = replace_band_limits buffer)
  /\ band_150_170 = [xdc; x05; xa4; x06]
  /\ band_144_164 = [xa0; x05; x68; x06]
  /\ length band_144_164 = length band_150_170
  /\ replace_band_limits
       ([x01] ++ band_150_170 ++ band_150_170 ++ [x02] ++ band_150_170
          ++ [x03; xdc] ++ band_150_170 ++ [x04])
     = [x01] ++ band_144_164 ++ band_144_164 ++ [x02] ++ band_144_164
         ++ [x03; xdc] ++ band_150_170 ++ [x04]
  /\ replace_band_limits ([x01] ++ band_150_170 ++ [x02; xdc; x05])
     = [x01] ++ band_144_164 ++ [x02; xdc; x05]
  /\ replace_band_limits [x01; x02] = [x01; x02].
Proof.
  split; [|repeat split].
  intros buffer out. unfold replace_band_limits, band_150_170. split.
  - apply scan_deterministic.
  - intros ->. apply bytes_replace_scans.
Qed.

(** C5: buffer length is invariant across every transformation: for every
    buffer [replace_band_limits] returns a buffer of the same length, and
    for every buffer and every target checksum [fixup_checksum] returns a
    buffer of the same length. *)
Theorem buffer_length_invariant :
  (forall buffer : bytes,
      length (replace_band_limits buffer) = length buffer)
  /\ (forall (buffer : bytes) (t : Z),
        exists fixed : bytes,
          fixup_checksum buffer t = Ok fixed
          /\ length fixed = length buffer).
Proof.
  split.
  - intros buffer. apply bytes_replace_length. reflexivity.
  - intros buffer t. rewrite fixup_checksum_traverse.
    eexists. split; [reflexivity|].
    apply bytes_replace_length. rewrite perturb_length. reflexivity.
Qed.

(** C1: for every buffer holding exactly one occurrence of the anchor
    'ALL RIGHTS RESERVED' and every target [t] in [0, 65535] whose distance
    to the buffer's checksum is at most 32 times the number of non-space
    anchor bytes, [fixup_checksum buffer t] returns a buffer whose checksum
    is [t] and whose length is the input's. *)
Theorem fixup_checksum_reaches_target (buffer : bytes) (t : Z) :
  occurrences original buffer = 1%nat ->
  0 <= t <= 65535 ->
  Z.abs (t - checksum buffer) <= 32 * non_space original ->
  exists fixed : bytes,
    fixup_checksum buffer t = Ok fixed
    /\ checksum fixed = t
    /\ length fixed = length buffer.
Proof.
  intros Hocc Ht Hd.
  destruct (occurrences_find original buffer) as [k F]; [lia|].
  rewrite fixup_checksum_traverse. eexists. split; [reflexivity|]. split.
  - rewrite checksum_byte_sum, (bytes_replace_once_sum _ _ _ _ F).
    pose proof (perturb_sum original (t - checksum buffer) original_anchor)
      as Hs.
    rewrite (perturb_absorbs _ _ Hd) in Hs.
    pose proof (checksum_byte_sum buffer) as Hc.
    replace (byte_sum buffer
             + byte_sum (perturb original (t - checksum buffer)).1
             - byte_sum original)
      with (byte_sum buffer + (t - byte_sum buffer mod 65536)) by lia.
    apply checksum_shift. exact Ht.
  - apply bytes_replace_length. rewrite perturb_length. reflexivity.
Qed.

Lemma fixup_checksum_reaches_target_witness :
  occurrences original (replace_band_limits sample_mdf) = 1%nat
  /\ checksum sample_mdf - checksum (replace_band_limits sample_mdf) = 360
  /\ exists fixed : bytes,
       fixup_checksum (replace_band_limits sample_mdf) (checksum sample_mdf)
       = Ok fixed
       /\ checksum fixed = checksum sample_mdf
       /\ length fixed = length (replace_band_limits sample_mdf).
Proof.
  split; [vm_compute; reflexivity|]. split; [vm_compute; reflexivity|].
  apply (fixup_checksum_reaches_target (replace_band_limits sample_mdf)
           (checksum sample_mdf)).
  - vm_compute. reflexivity.
  - vm_compute. split; discriminate.
  - vm_compute. discriminate.
Defined.

(** ** Positions inside the replaced occurrence *)

Lemma bytes_find_fits (old buf : bytes) (k : nat) :
  bytes_find old buf = Some k -> (k + length old <= length buf)%nat.
Proof.
  revert k. induction buf as [|b buf IH]; intros k F.
  - simpl in F. destruct (starts_with old []) eqn:E; [|discriminate].
    injection F as <-. apply starts_with_prefix in E as [rest E].
    destruct old; [simpl; lia | discriminate].
  - destruct (starts_with old (b :: buf)) eqn:E.
    + rewrite bytes_find_hit in F by exact E. injection F as <-.
      apply starts_with_prefix in E as [rest ->]. rewrite length_app. lia.
    + rewrite bytes_find_miss in F by exact E.
      destruct (bytes_find old buf) as [j|] eqn:Fj; [|discriminate].
      injection F as <-. specialize (IH j eq_refl). simpl. lia.
Qed.

Lemma lookup_in_occurrence (pre mid post : bytes) (k j : nat) :
  length pre = k -> (j < length mid)%nat ->
  (pre ++ mid ++ post) !! (k + j)%nat = mid !! j.
Proof.
  intros Hk Hj. rewrite lookup_app_r by lia.
  replace (k + j - length pre)%nat with j by lia.
  apply lookup_app_l. exact Hj.
Qed.

(** [bytearray_iadd] raises [ValueError] exactly when the sum leaves
    [range(0, 256)]. *)
Lemma bytearray_iadd_spec (pre rest : bytes) (b : byte) (change : Z) :
  bytearray_iadd (pre ++ b :: rest) (length pre) change
  = if (0 <=? byte_val b + change) && (byte_val b + change <? 256)
    then Ok (pre ++ byte_add b change :: rest)
    else Raise ValueError.
Proof.
  destruct ((0 <=? byte_val b + change) && (byte_val b + change <? 256))
    eqn:E.
  - apply bytearray_iadd_middle. apply andb_true_iff in E. lia.
  - unfold bytearray_iadd. rewrite list_lookup_middle by reflexivity.
    cbv zeta. rewrite E. reflexivity.
Qed.

Lemma perturb_loop_skips_space (pre post : bytes) (b : byte)
      (rest : list nat) (d : Z) :
  byte_val b = 32 ->
  perturb_loop (length pre :: rest) (pre ++ b :: post) d
  = perturb_loop rest (pre ++ b :: post) d.
Proof.
  intros Hb. cbn [perturb_loop].
  rewrite list_lookup_middle by reflexivity. rewrite Hb. cbn [Z.eqb Pos.eqb].
  destruct (d =? 0) eqn:Ed; [|reflexivity].
  apply Z.eqb_eq in Ed. subst d. destruct rest; reflexivity.
Qed.

(** C6: for every buffer and every target, every value the loop stores
    into the anchor copy is a valid byte: each non-space anchor byte is an
    uppercase letter in [65, 90], each change lies in [-32, 32], so the
    sum stays in [0, 255]; the store raises [ValueError] only outside that
    range, and neither the loop nor [fixup_checksum] ever raises. *)
Theorem perturbation_stays_in_byte_range (buffer : bytes) (t : Z) :
  Forall (fun b => byte_val b = 32
                   \/ (65 <= byte_val b <= 90
                       /\ forall d : Z,
                            -32 <= change_for d <= 32
                            /\ 0 <= byte_val b + change_for d <= 255))
    original
  /\ (forall (pre rest : bytes) (b : byte) (change : Z),
        bytearray_iadd (pre ++ b :: rest) (length pre) change
        = if (0 <=? byte_val b + change) && (byte_val b + change <? 256)
          then Ok (pre ++ byte_add b change :: rest)
          else Raise ValueError)
  /\ (exists (replaced : bytes) (d : Z),
        perturb_loop (seq 0 (length original)) original (t - checksum buffer)
        = Ok (replaced, d)
        /\ Forall (fun b => byte_val b = 32 \/ 33 <= byte_val b <= 122)
             replaced)
  /\ exists fixed : bytes, fixup_checksum buffer t = Ok fixed.
Proof.
  split; [|split; [|split]].
  - eapply Forall_impl; [exact original_anchor|].
    intros b [Hb|Hb]; [left; exact Hb | right]. split; [exact Hb|].
    intros d. pose proof (change_for_bounds d). lia.
  - apply bytearray_iadd_spec.
  - rewrite perturb_loop_original. eexists. eexists.
    split; [reflexivity|]. apply perturb_values, original_anchor.
  - rewrite fixup_checksum_traverse. eexists. reflexivity.
Qed.

(** C7: for every buffer and every target, an anchor byte equal to the
    space character (32) is skipped: the loop step at its index changes
    neither the bytearray nor the difference, the perturbed anchor holds the
    same byte there, and the byte of the output buffer at that position of
    the replaced occurrence is the input's. *)
Theorem space_bytes_skipped (buffer : bytes) (t : Z) (j : nat) (b : byte) :
  original !! j = Some b ->
  byte_val b = 32 ->
  (forall (pre post : bytes) (rest : list nat) (d : Z),
      perturb_loop (length pre :: rest) (pre ++ b :: post) d
      = perturb_loop rest (pre ++ b :: post) d)
  /\ exists (replaced : bytes) (d : Z) (fixed : bytes),
       perturb_loop (seq 0 (length original)) original (t - checksum buffer)
       = Ok (replaced, d)
       /\ replaced !! j = Some b
       /\ fixup_checksum buffer t = Ok fixed
       /\ match bytes_find original buffer with
          | Some k =>
              buffer !! (k + j)%nat = Some b /\ fixed !! (k + j)%nat = Some b
          | None => fixed = buffer
          end.
Proof.
  intros Hj Hb. split.
  - intros pre post rest d. apply perturb_loop_skips_space. exact Hb.
  - rewrite perturb_loop_original, fixup_checksum_traverse.
    eexists. eexists. eexists. split; [reflexivity|].
    pose proof (perturb_keeps_spaces original (t - checksum buffer) j b Hj Hb)
      as Hkeep.
    split; [exact Hkeep|]. split; [reflexivity|].
    destruct (bytes_find original buffer) as [k|] eqn:F.
    + pose proof (bytes_find_fits _ _ _ F) as Hfit.
      pose proof (bytes_find_Some _ _ _ F) as Hsplit.
      assert (Hjlen : (j < length original)%nat)
        by (apply lookup_lt_Some in Hj; exact Hj).
      assert (Hk : length (take k buffer) = k)
        by (rewrite length_take; lia).
      split.
      * etrans; [exact (f_equal (fun l => l !! (k + j)%nat) Hsplit)|].
        cbv beta. rewrite lookup_in_occurrence; [exact Hj | exact Hk | exact Hjlen].
      * rewrite (bytes_replace_once _ _ _ _ F).
        rewrite lookup_in_occurrence; [exact Hkeep | exact Hk |].
        rewrite perturb_length. exact Hjlen.
    + apply bytes_replace_absent. exact F.
Qed.

Lemma space_bytes_skipped_witness :
  original !! 3%nat = Some x20
  /\ exists (replaced : bytes) (d : Z) (fixed : bytes),
       perturb_loop (seq 0 (length original)) original
         (checksum sample_mdf - checksum (replace_band_limits sample_mdf))
       = Ok (replaced, d)
       /\ replaced !! 3%nat = Some x20
       /\ fixup_checksum (replace_band_limits sample_mdf) (checksum sample_mdf)
          = Ok fixed
       /\ match bytes_find original (replace_band_limits sample_mdf) with
          | Some k =>
              replace_band_limits sample_mdf !! (k + 3)%nat = Some x20
              /\ fixed !! (k + 3)%nat = Some x20
          | None => fixed = replace_band_limits sample_mdf
          end.
Proof.
  split; [reflexivity|].
  apply (space_bytes_skipped (replace_band_limits sample_mdf)
           (checksum sample_mdf) 3 x20); reflexivity.
Defined.

(** C8: for every buffer [B], [fixup_checksum B (checksum B)] returns [B]
    unchanged: the difference is 0, the loop stops at once with the anchor
    copy equal to the anchor, and replacing the anchor by itself is the
    identity on the buffer. *)
Theorem fixup_checksum_same_target (B : bytes) :
  perturb_loop (seq 0 (length original)) original (checksum B - checksum B)
  = Ok (original, 0)
  /\ bytes_replace original original 1 B = B
  /\ fixup_checksum B (checksum B) = Ok B.
Proof.
  split; [|split].
  - rewrite perturb_loop_original, Z.sub_diag, perturb_zero. reflexivity.
  - apply bytes_replace_same.
  - rewrite fixup_checksum_traverse, Z.sub_diag, perturb_zero.
    cbn [fst]. rewrite bytes_replace_same. reflexivity.
Qed.

(** C9, as the specification states it, fails: the anchor
    'ALL RIGHTS RESERVED' is not 20 bytes long. *)
Lemma anchor_is_not_20_bytes :
  ~ (original = String.list_byte_of_string "ALL RIGHTS RESERVED"
     /\ length original = 20%nat).
Proof.
  intros [_ H]. rewrite original_length in H. discriminate H.
Qed.

(** C9, amended: the anchor is the ASCII byte sequence
    'ALL RIGHTS RESERVED', 19 bytes long; when the buffer holds it, its
    leftmost occurrence, and only that one, is replaced by the 19-byte
    perturbed copy: the bytes before it and all bytes after it, later
    occurrences included, are the input's. *)
Theorem anchor_first_occurrence_replaced (buffer : bytes) (t : Z) (k : nat) :
  bytes_find original buffer = Some k ->
  original = String.list_byte_of_string "ALL RIGHTS RESERVED"
  /\ length original = 19%nat
  /\ buffer = take k buffer ++ original ++ drop (k + 19) buffer
  /\ bytes_find original (take (k + 18) buffer) = None
  /\ exists replaced : bytes,
       length replaced = 19%nat
       /\ fixup_checksum buffer t
          = Ok (take k buffer ++ replaced ++ drop (k + 19) buffer).
Proof.
  intros F. split; [reflexivity|]. split; [exact original_length|].
  split; [|split].
  - rewrite <- original_length. apply bytes_find_Some. exact F.
  - pose proof (bytes_find_leftmost original buffer k) as H.
    rewrite original_length in H.
    replace (k + 19 - 1)%nat with (k + 18)%nat in H by lia.
    apply H; [|exact F]. intros E. apply (f_equal length) in E.
    rewrite original_length in E. discriminate E.
  - exists (perturb original (t - checksum buffer)).1. split.
    + rewrite perturb_length. exact original_length.
    + rewrite fixup_checksum_traverse, (bytes_replace_once _ _ _ _ F).
      rewrite original_length. reflexivity.
Qed.

Lemma anchor_first_occurrence_replaced_witness :
  bytes_find original sample_two_anchors = Some 1%nat
  /\ fixup_checksum sample_two_anchors (checksum sample_two_anchors + 40)
     = Ok ([x4d] ++ String.list_byte_of_string "aTL RIGHTS RESERVED"
             ++ [x00] ++ original ++ [xff])
  /\ length original = 19%nat
  /\ sample_two_anchors
     = take 1 sample_two_anchors ++ original ++ drop (1 + 19) sample_two_anchors
  /\ bytes_find original (take (1 + 18) sample_two_anchors) = None
  /\ exists replaced : bytes,
       length replaced = 19%nat
       /\ fixup_checksum sample_two_anchors (checksum sample_two_anchors + 40)
          = Ok (take 1 sample_two_anchors ++ replaced
                  ++ drop (1 + 19) sample_two_anchors).
Proof.
  split; [reflexivity|]. split; [vm_compute; reflexivity|].
  apply (anchor_first_occurrence_replaced sample_two_anchors
           (checksum sample_two_anchors + 40) 1).
  reflexivity.
Defined.

(** C10: if the buffer does not hold the anchor at all, then for every
    target [fixup_checksum] returns the buffer unchanged; a checksum
    difference left by the substitution stays, and the script's comparison
    then ends the run with exit code 3 and no file operation. *)
Theorem fixup_checksum_without_anchor (buffer : bytes) (t : Z) :
  occurrences original buffer = 0%nat ->
  fixup_checksum buffer t = Ok buffer
  /\ forall (os : os_env) (prog arg : string) (input : bytes),
       files os (abspath os arg) = Some input ->
       replace_band_limits input = buffer ->
       checksum buffer <> checksum input ->
       main os [prog; arg] = {| status := Exit 3; fs_ops := [] |}.
Proof.
  intros Hocc. apply bytes_find_None in Hocc.
  assert (Hfix : forall t', fixup_checksum buffer t' = Ok buffer).
  { intros t'. rewrite fixup_checksum_traverse.
    rewrite bytes_replace_absent by exact Hocc. reflexivity. }
  split; [apply Hfix|].
  intros os prog arg input Hfile Hsub Hne.
  unfold main. rewrite Hfile. cbv zeta. rewrite Hsub, Hfix.
  apply Z.eqb_neq in Hne. rewrite Hne. reflexivity.
Qed.

Lemma fixup_checksum_without_anchor_witness :
  occurrences original (replace_band_limits sample_no_anchor) = 0%nat
  /\ fixup_checksum (replace_band_limits sample_no_anchor)
       (checksum sample_no_anchor)
     = Ok (replace_band_limits sample_no_anchor)
  /\ main (sample_os sample_no_anchor) ["mdfham2m.py"; "SM50.MDF"]%string
     = {| status := Exit 3; fs_ops := [] |}.
Proof.
  split; [reflexivity|].
  destruct (fixup_checksum_without_anchor
              (replace_band_limits sample_no_anchor)
              (checksum sample_no_anchor) eq_refl) as [Hfix Hrun].
  split; [exact Hfix|].
  apply (Hrun (sample_os sample_no_anchor) "mdfham2m.py" "SM50.MDF"
           sample_no_anchor)%string.
  - reflexivity.
  - reflexivity.
  - vm_compute. discriminate.
Defined.

(** C2: in a run on an existing file, the script compares the checksum of
    the fixed buffer with the checksum of the input: either they are equal
    and the run writes the fixed buffer to a temporary file and renames it
    into place, or they differ and the run ends with exit code 3 having
    performed no file operation. *)
Theorem pipeline_checksum_guard
        (os : os_env) (prog arg : string) (buffer : bytes) :
  files os (abspath os arg) = Some buffer ->
  exists fixed : bytes,
    fixup_checksum (replace_band_limits buffer) (checksum buffer) = Ok fixed
    /\ ((checksum fixed = checksum buffer
         /\ main os [prog; arg]
            = {| status := Exit 0;
                 fs_ops :=
                   [WriteTemp (dirname os (abspath os arg))
                      (tempname os (dirname os (abspath os arg))) fixed;
                    Rename (abspath os arg) (abspath os arg +:+ ".BAK")%string;
                    Rename (tempname os (dirname os (abspath os arg)))
                      (abspath os arg)] |})
        \/ (checksum fixed <> checksum buffer
            /\ main os [prog; arg] = {| status := Exit 3; fs_ops := [] |})).
Proof.
  intros Hfile. unfold main. rewrite Hfile. cbv zeta.
  rewrite fixup_checksum_traverse. eexists. split; [reflexivity|].
  match goal with
  | |- context [negb (?a =? ?b)] => destruct (Z.eqb_spec a b) as [E|E]
  end.
  - left. split; [exact E | reflexivity].
  - right. split; [exact E | reflexivity].
Qed.

Lemma pipeline_checksum_guard_witness :
  exists fixed : bytes,
    fixup_checksum (replace_band_limits sample_mdf) (checksum sample_mdf)
    = Ok fixed
    /\ ((checksum fixed = checksum sample_mdf
         /\ main (sample_os sample_mdf) ["mdfham2m.py"; "SM50.MDF"]%string
            = {| status := Exit 0;
                 fs_ops :=
                   [WriteTemp "/rss" "/rss/tmp0" fixed;
                    Rename "/rss/SM50.MDF" "/rss/SM50.MDF.BAK";
                    Rename "/rss/tmp0" "/rss/SM50.MDF"]%string |})
        \/ (checksum fixed <> checksum sample_mdf
            /\ main (sample_os sample_mdf) ["mdfham2m.py"; "SM50.MDF"]%string
               = {| status := Exit 3; fs_ops := [] |})).
Proof.
  apply (pipeline_checksum_guard (sample_os sample_mdf)
           "mdfham2m.py" "SM50.MDF" sample_mdf)%string.
  reflexivity.
Defined.

(** ** Worked runs *)

(** The anchor has 17 bytes other than spaces, a budget of 544. *)
Example non_space_original : 32 * non_space original = 544.
Proof. reflexivity. Qed.

(** Three band limits lower the byte sum by 360; the first twelve letters
    of the copyright text absorb it and the run replaces the file. *)
Example run_sample_mdf :
  main (sample_os sample_mdf) ["mdfham2m.py"; "SM50.MDF"]%string
  = {| status := Exit 0;
       fs_ops :=
         [WriteTemp "/rss" "/rss/tmp0"
            ([x4d; x44; x46] ++ band_144_164 ++ [x00] ++ band_144_164
               ++ String.list_byte_of_string "all rights re[ERVED"
               ++ band_144_164 ++ [xff]);
          Rename "/rss/SM50.MDF" "/rss/SM50.MDF.BAK";
          Rename "/rss/tmp0" "/rss/SM50.MDF"]%string |}.
Proof. vm_compute. reflexivity. Qed.

(** A difference beyond the budget is only partly absorbed. *)
Example fixup_checksum_beyond_budget :
  fixup_checksum original (checksum original + 545)
  = Ok (String.list_byte_of_string "all rights reserved")
  /\ checksum (String.list_byte_of_string "all rights reserved")
     = checksum original + 544.
Proof. split; vm_compute; reflexivity. Qed.

(** Usage error and missing file. *)
Example run_without_argument :
  main (sample_os sample_mdf) ["mdfham2m.py"]%string
  = {| status := Exit 1; fs_ops := [] |}.
Proof. reflexivity. Qed.

Example run_missing_file :
  main (sample_os sample_mdf) ["mdfham2m.py"; "OTHER.MDF"]%string
  = {| status := Exit 2; fs_ops := [] |}.
Proof. reflexivity. Qed.

(** * Further properties of the program *)

(** ** More checksum arithmetic *)

Lemma byte_val_inj (x y : byte) : byte_val x = byte_val y -> x = y.
Proof.
  unfold byte_val. intros H. apply N2Z.inj in H.
  pose proof (Byte.of_to_N x) as Hx. rewrite H, Byte.of_to_N in Hx.
  injection Hx as ->. reflexivity.
Qed.

Lemma byte_sum_Permutation (a b : bytes) : a ≡ₚ b -> byte_sum a = byte_sum b.
Proof.
  induction 1; simpl; lia.
Qed.

(** X1: the checksum of a concatenation is the sum of the two checksums
    reduced modulo 65536. *)
Theorem checksum_app (a b : bytes) :
  checksum (a ++ b) = (checksum a + checksum b) mod 65536.
Proof.
  rewrite !checksum_byte_sum, byte_sum_app. apply Zplus_mod.
Qed.

(** X2: the checksum does not depend on the order of the bytes: two
    buffers that are permutations of each other have the same checksum. *)
Theorem checksum_Permutation (a b : bytes) :
  a ≡ₚ b -> checksum a = checksum b.
Proof.
  intros H. rewrite !checksum_byte_sum, (byte_sum_Permutation a b H).
  reflexivity.
Qed.

Lemma checksum_Permutation_witness :
  checksum [x01; x02; xff] = checksum [xff; x01; x02].
Proof.
  apply (checksum_Permutation [x01; x02; xff] [xff; x01; x02]).
  symmetry. apply (Permutation_cons_append [x01; x02] xff).
Defined.

(** X3: the checksum detects every change of a single byte: two buffers
    that differ in exactly one position have different checksums. *)
Theorem checksum_single_byte_change (pre post : bytes) (x y : byte) :
  x <> y -> checksum (pre ++ x :: post) <> checksum (pre ++ y :: post).
Proof.
  intros Hxy Hsum. apply Hxy, byte_val_inj.
  rewrite !checksum_byte_sum, !byte_sum_app in Hsum. cbn [byte_sum] in Hsum.
  pose proof (byte_val_range x). pose proof (byte_val_range y).
  revert Hsum.
  generalize (byte_sum pre) (byte_sum post) (byte_val x) (byte_val y) H H0.
  clear. intros p q vx vy Hx Hy Hsum.
  Z.to_euclidean_division_equations. lia.
Qed.

Lemma checksum_single_byte_change_witness :
  checksum ([x4d] ++ x44 :: [x46]) <> checksum ([x4d] ++ x45 :: [x46]).
Proof.
  apply (checksum_single_byte_change [x4d] [x46] x44 x45). discriminate.
Defined.

(** ** What the loop leaves of the difference *)

Lemma non_space_nonneg (l : bytes) : 0 <= non_space l.
Proof.
  induction l as [|b l IH]; simpl; [lia|].
  destruct (byte_val b =? 32); lia.
Qed.

Lemma perturb_remaining (rest : bytes) (d : Z) :
  (perturb rest d).2
  = d - Z.max (- (32 * non_space rest)) (Z.min (32 * non_space rest) d).
Proof.
  revert d. induction rest as [|b rest IH]; intros d; simpl.
  - lia.
  - pose proof (non_space_nonneg rest) as Hn.
    destruct (d =? 0) eqn:Ed.
    + apply Z.eqb_eq in Ed. simpl. destruct (byte_val b =? 32); lia.
    + destruct (byte_val b =? 32).
      * specialize (IH d). destruct (perturb rest d). simpl in *. lia.
      * specialize (IH (d - change_for d)).
        destruct (perturb rest (d - change_for d)). simpl in *.
        rewrite IH. unfold change_for. destruct (Z.gtb_spec d 0); lia.
Qed.

Lemma perturb_original_sum (d : Z) :
  byte_sum (perturb original d).1
  = byte_sum original + Z.max (-544) (Z.min 544 d).
Proof.
  pose proof (perturb_sum original d original_anchor) as Hs.
  rewrite perturb_remaining in Hs.
  change (32 * non_space original) with 544 in Hs. lia.
Qed.

Lemma Forall2_close_refl (l : bytes) :
  Forall2 (fun x y => Z.abs (byte_val y - byte_val x) <= 32) l l.
Proof.
  induction l; constructor; [lia | assumption].
Qed.

Lemma perturb_close (rest : bytes) (d : Z) :
  Forall anchor_byte rest ->
  Forall2 (fun x y => Z.abs (byte_val y - byte_val x) <= 32)
    rest (perturb rest d).1.
Proof.
  intros Hrest. revert d.
  induction Hrest as [|b rest Hb Hrest IH]; intros d; simpl.
  - constructor.
  - destruct (d =? 0); [apply Forall2_close_refl|].
    destruct (byte_val b =? 32) eqn:Eb.
    + specialize (IH d). destruct (perturb rest d). simpl in *.
      constructor; [lia | exact IH].
    + apply Z.eqb_neq in Eb. specialize (IH (d - change_for d)).
      destruct (perturb rest (d - change_for d)). simpl in *.
      constructor; [|exact IH].
      pose proof (anchor_byte_add b d Hb Eb).
      pose proof (change_for_bounds d).
      rewrite byte_add_val by lia. lia.
Qed.

(** ** The byte sum after reconciliation *)

Lemma fixup_result_sum (buffer : bytes) (d : Z) :
  (0 < occurrences original buffer)%nat ->
  byte_sum (bytes_replace original (perturb original d).1 1 buffer)
  = byte_sum buffer + Z.max (-544) (Z.min 544 d).
Proof.
  intros Hocc. destruct (occurrences_find original buffer Hocc) as [k F].
  rewrite (bytes_replace_once_sum _ _ _ _ F), perturb_original_sum. lia.
Qed.

Lemma Forall2_rewrite_l {A B : Type} (R : A -> B -> Prop)
      (l l' : list A) (k : list B) :
  l = l' -> Forall2 R l' k -> Forall2 R l k.
Proof.
  intros ->. exact id.
Qed.

(** X4: when the buffer holds the copyright text, [fixup_checksum] moves
    the byte sum of the buffer by the difference between the target and
    the buffer's checksum, cut off at -544 and at 544 (17 letters, at most
    32 each). *)
Theorem fixup_checksum_sum_law (buffer : bytes) (t : Z) :
  (0 < occurrences original buffer)%nat ->
  exists fixed : bytes,
    fixup_checksum buffer t = Ok fixed
    /\ byte_sum fixed
       = byte_sum buffer + Z.max (-544) (Z.min 544 (t - checksum buffer)).
Proof.
  intros Hocc. rewrite fixup_checksum_traverse. eexists.
  split; [reflexivity|]. apply fixup_result_sum. exact Hocc.
Qed.

Lemma fixup_checksum_sum_law_witness :
  exists fixed : bytes,
    fixup_checksum sample_mdf (checksum sample_mdf + 1000) = Ok fixed
    /\ byte_sum fixed
       = byte_sum sample_mdf
         + Z.max (-544)
             (Z.min 544 (checksum sample_mdf + 1000 - checksum sample_mdf)).
Proof.
  apply (fixup_checksum_sum_law sample_mdf (checksum sample_mdf + 1000)).
  vm_compute. reflexivity.
Defined.

(** X5: the budget of 544 is sharp: when the buffer holds the copyright
    text and the target is a 16-bit value, the buffer returned by
    [fixup_checksum] has the target as its checksum if and only if the
    target is within 544 of the buffer's checksum. *)
Theorem fixup_checksum_budget_sharp (buffer : bytes) (t : Z) :
  (0 < occurrences original buffer)%nat ->
  0 <= t <= 65535 ->
  exists fixed : bytes,
    fixup_checksum buffer t = Ok fixed
    /\ (checksum fixed = t <-> Z.abs (t - checksum buffer) <= 544).
Proof.
  intros Hocc Ht. rewrite fixup_checksum_traverse. eexists.
  split; [reflexivity|].
  rewrite checksum_byte_sum, (fixup_result_sum _ _ Hocc).
  rewrite checksum_byte_sum.
  generalize (byte_sum buffer). intros s.
  Z.to_euclidean_division_equations. lia.
Qed.

Lemma fixup_checksum_budget_sharp_witness :
  exists fixed : bytes,
    fixup_checksum sample_mdf (checksum sample_mdf + 545) = Ok fixed
    /\ (checksum fixed = checksum sample_mdf + 545
        <-> Z.abs (checksum sample_mdf + 545 - checksum sample_mdf) <= 544).
Proof.
  apply (fixup_checksum_budget_sharp sample_mdf (checksum sample_mdf + 545)).
  - vm_compute. reflexivity.
  - vm_compute. split; discriminate.
Defined.

(** X6: for every buffer and every target, the buffer returned by
    [fixup_checksum] has the length of the input and differs from it by at
    most 32 in every byte. *)
Theorem fixup_checksum_bounded_change (buffer : bytes) (t : Z) :
  exists fixed : bytes,
    fixup_checksum buffer t = Ok fixed
    /\ Forall2 (fun x y => Z.abs (byte_val y - byte_val x) <= 32)
         buffer fixed.
Proof.
  rewrite fixup_checksum_traverse. eexists. split; [reflexivity|].
  destruct (bytes_find original buffer) as [k|] eqn:F.
  - rewrite (bytes_replace_once _ _ _ _ F).
    eapply Forall2_rewrite_l; [exact (bytes_find_Some _ _ _ F)|].
    apply Forall2_app; [apply Forall2_close_refl|].
    apply Forall2_app; [|apply Forall2_close_refl].
    apply perturb_close, original_anchor.
  - rewrite bytes_replace_absent by exact F. apply Forall2_close_refl.
Qed.

(** ** The substitution and the byte sum *)

Lemma bytes_replace_sum (old new : bytes) (n : nat) (buf : bytes) :
  exists m : nat,
    (m <= n)%nat
    /\ (m = 0%nat <-> n = 0%nat \/ bytes_find old buf = None)
    /\ byte_sum (bytes_replace old new n buf)
       = byte_sum buf + Z.of_nat m * (byte_sum new - byte_sum old).
Proof.
  revert buf. induction n as [|n IH]; intros buf; cbn [bytes_replace].
  - exists 0%nat. split; [lia|]. split; [|lia]. split; [left|]; reflexivity.
  - destruct (bytes_find old buf) as [k|] eqn:F.
    + destruct (IH (drop (k + length old) buf)) as (m & Hm & _ & Hsum).
      exists (S m). split; [lia|]. split.
      * split; [discriminate | intros [H|H]; discriminate].
      * apply bytes_find_Some in F. apply (f_equal byte_sum) in F.
        rewrite !byte_sum_app in F. rewrite !byte_sum_app, Hsum. lia.
    + exists 0%nat. split; [lia|]. split; [|lia].
      split; [right|]; reflexivity.
Qed.

Lemma replace_band_limits_sum (buffer : bytes) :
  exists m : Z,
    0 <= m <= 3
    /\ (m = 0 <-> occurrences band_150_170 buffer = 0%nat)
    /\ byte_sum (replace_band_limits buffer) = byte_sum buffer - 120 * m.
Proof.
  destruct (bytes_replace_sum band_150_170 band_144_164 3 buffer)
    as (m & Hm & Hzero & Hsum).
  exists (Z.of_nat m). split; [lia|]. split.
  - rewrite <- bytes_find_None. split.
    + intros H. destruct Hzero as [Hzero _].
      destruct Hzero as [Hz|Hz]; [lia | discriminate | exact Hz].
    + intros H. destruct Hzero as [_ Hzero]. rewrite Hzero; [reflexivity|].
      right. exact H.
  - unfold replace_band_limits. rewrite Hsum.
    change (byte_sum band_144_164 - byte_sum band_150_170) with (-120). lia.
Qed.

(** X7: [replace_band_limits] lowers the byte sum of the buffer by 120
    for each occurrence it replaces, at most three: by 0 exactly when the
    buffer holds no band limits, and by 120, 240 or 360 otherwise. *)
Theorem replace_band_limits_sum_drop (buffer : bytes) :
  exists m : Z,
    0 <= m <= 3
    /\ (m = 0 <-> occurrences band_150_170 buffer = 0%nat)
    /\ byte_sum (replace_band_limits buffer) = byte_sum buffer - 120 * m.
Proof.
  destruct (bytes_replace_sum band_150_170 band_144_164 3 buffer)
    as (m & Hm & [Hzero Hzero'] & Hsum).
  exists (Z.of_nat m). split; [lia|]. split.
  - rewrite <- bytes_find_None. split.
    + intros H. destruct Hzero as [Hz|Hz]; [lia | discriminate | exact Hz].
    + intros H. rewrite Hzero'; [reflexivity | right; exact H].
  - unfold replace_band_limits. rewrite Hsum.
    change (byte_sum band_144_164 - byte_sum band_150_170) with (-120). lia.
Qed.

(** ** The substitution and the copyright text *)

Section Outside.
Variable P : byte -> bool.

Lemma same_outside_refl (l : bytes) : Forall2 (same_outside P) l l.
Proof.
  induction l; constructor; [left; reflexivity | assumption].
Qed.

Lemma starts_with_same_outside (old l l' : bytes) :
  forallb P old = true ->
  Forall2 (same_outside P) l l' ->
  starts_with old l = starts_with old l'.
Proof.
  revert l l'. induction old as [|o old IH]; intros l l' Ho H; [reflexivity|].
  simpl in Ho. apply andb_true_iff in Ho as [Ho Hold].
  destruct H as [|x y l l' Hxy H]; [reflexivity|]. simpl.
  rewrite (IH l l' Hold H). destruct Hxy as [->|[Hx Hy]]; [reflexivity|].
  assert (Hne : forall z, P z = false -> Byte.eqb o z = false).
  { intros z Hz. destruct (Byte.eqb o z) eqn:E; [|reflexivity].
    apply Byte.byte_dec_bl in E. subst z. congruence. }
  rewrite (Hne x Hx), (Hne y Hy). reflexivity.
Qed.

Lemma occurrences_same_outside (old l l' : bytes) :
  forallb P old = true ->
  Forall2 (same_outside P) l l' ->
  occurrences old l = occurrences old l'.
Proof.
  intros Ho H. induction H as [|x y l l' Hxy H IH].
  - reflexivity.
  - cbn [occurrences]. rewrite IH.
    rewrite (starts_with_same_outside old (x :: l) (y :: l') Ho)
      by (constructor; assumption).
    reflexivity.
Qed.

Lemma bytes_replace_same_outside (old new : bytes) (n : nat) (buf : bytes) :
  Forall2 (same_outside P) old new ->
  Forall2 (same_outside P) buf (bytes_replace old new n buf).
Proof.
  intros Hon. revert buf. induction n as [|n IH]; intros buf;
    cbn [bytes_replace].
  - apply same_outside_refl.
  - destruct (bytes_find old buf) as [k|] eqn:F;
      [|apply same_outside_refl].
    eapply Forall2_rewrite_l; [exact (bytes_find_Some _ _ _ F)|].
    apply Forall2_app; [apply same_outside_refl|].
    apply Forall2_app; [exact Hon | apply IH].
Qed.

End Outside.

Lemma band_limits_outside_text :
  Forall2 (same_outside anchor_byteb) band_150_170 band_144_164.
Proof.
  repeat constructor; right; split; reflexivity.
Qed.

Lemma replace_band_limits_occurrences (buffer : bytes) :
  occurrences original (replace_band_limits buffer)
  = occurrences original buffer.
Proof.
  symmetry. apply (occurrences_same_outside anchor_byteb); [reflexivity|].
  apply bytes_replace_same_outside, band_limits_outside_text.
Qed.

(** X8: [replace_band_limits] neither creates nor destroys an occurrence
    of the copyright text: the substituted buffer holds
    'ALL RIGHTS RESERVED' at as many offsets as the input. *)
Theorem replace_band_limits_keeps_text (buffer : bytes) :
  occurrences original (replace_band_limits buffer)
  = occurrences original buffer.
Proof.
  unfold replace_band_limits. symmetry.
  apply (occurrences_same_outside anchor_byteb).
  - vm_compute. reflexivity.
  - apply bytes_replace_same_outside.
    repeat constructor; right; split; reflexivity.
Qed.

(** ** Runs of the script on an existing file *)

Lemma fixup_checksum_noop (B : bytes) : fixup_checksum B (checksum B) = Ok B.
Proof.
  rewrite fixup_checksum_traverse, Z.sub_diag, perturb_zero.
  cbn [fst]. rewrite bytes_replace_same. reflexivity.
Qed.

Lemma main_success (os : os_env) (prog arg : string) (input fixed : bytes) :
  files os (abspath os arg) = Some input ->
  fixup_checksum (replace_band_limits input) (checksum input) = Ok fixed ->
  checksum fixed = checksum input ->
  main os [prog; arg]
  = {| status := Exit 0;
       fs_ops :=
         [WriteTemp (dirname os (abspath os arg))
            (tempname os (dirname os (abspath os arg))) fixed;
          Rename (abspath os arg) (abspath os arg +:+ ".BAK")%string;
          Rename (tempname os (dirname os (abspath os arg)))
            (abspath os arg)] |}.
Proof.
  intros Hfile Hfix Hsum. unfold main. rewrite Hfile. cbv zeta.
  rewrite Hfix, Hsum, Z.eqb_refl. reflexivity.
Qed.

Lemma main_mismatch (os : os_env) (prog arg : string) (input fixed : bytes) :
  files os (abspath os arg) = Some input ->
  fixup_checksum (replace_band_limits input) (checksum input) = Ok fixed ->
  checksum fixed <> checksum input ->
  main os [prog; arg] = {| status := Exit 3; fs_ops := [] |}.
Proof.
  intros Hfile Hfix Hsum. unfold main. rewrite Hfile. cbv zeta.
  rewrite Hfix. apply Z.eqb_neq in Hsum. rewrite Hsum. reflexivity.
Qed.

Lemma drop_within_checksum (s m : Z) :
  0 <= m <= 3 ->
  120 * m <= s mod 65536 ->
  (s - 120 * m
   + Z.max (-544)
       (Z.min 544 (s mod 65536 - (s - 120 * m) mod 65536))) mod 65536
  = s mod 65536.
Proof.
  intros Hm Hle. Z.to_euclidean_division_equations. lia.
Qed.

Lemma drop_below_checksum (s m : Z) :
  0 <= m <= 3 ->
  s mod 65536 < 120 * m ->
  (s - 120 * m
   + Z.max (-544)
       (Z.min 544 (s mod 65536 - (s - 120 * m) mod 65536))) mod 65536
  <> s mod 65536.
Proof.
  intros Hm Hlt. Z.to_euclidean_division_equations. lia.
Qed.



Lemma drop_changes_checksum (s m : Z) :
  1 <= m <= 3 -> (s - 120 * m) mod 65536 <> s mod 65536.
Proof.
  intros Hm. Z.to_euclidean_division_equations. lia.
Qed.

(** X10: on a file that holds the band limits but not the copyright text,
    the run always ends with exit code 3 and performs no file operation:
    the substitution changes the checksum and nothing can restore it. *)
Theorem main_fails_without_text
        (os : os_env) (prog arg : string) (input : bytes) :
  files os (abspath os arg) = Some input ->
  (0 < occurrences band_150_170 input)%nat ->
  occurrences original input = 0%nat ->
  main os [prog; arg] = {| status := Exit 3; fs_ops := [] |}.
Proof.
  intros Hfile Hband Htext.
  rewrite <- replace_band_limits_occurrences in Htext.
  apply bytes_find_None in Htext.
  destruct (replace_band_limits_sum input) as (m & Hm & Hzero & Hdrop).
  apply (main_mismatch os prog arg input (replace_band_limits input) Hfile).
  - rewrite fixup_checksum_traverse.
    rewrite bytes_replace_absent by exact Htext. reflexivity.
  - rewrite !checksum_byte_sum, Hdrop. apply drop_changes_checksum.
    assert (m <> 0) by (intros E; apply Hzero in E; lia). lia.
Qed.

Lemma main_fails_without_text_witness :
  main (sample_os sample_no_anchor) ["mdfham2m.py"; "SM50.MDF"]%string
  = {| status := Exit 3; fs_ops := [] |}.
Proof.
  apply (main_fails_without_text (sample_os sample_no_anchor)
           "mdfham2m.py" "SM50.MDF" sample_no_anchor)%string.
  - reflexivity.
  - vm_compute. lia.
  - reflexivity.
Defined.




(** ** Occurrences of the needle after a substitution

    A needle [h :: t] whose first byte occurs neither in its own tail nor
    in the replacement, and whose tail does not hold the first byte of the
    replacement: occurrences cannot overlap, and a replacement neither
    completes nor starts a new one. *)

Section Needle.
Variables (h : byte) (t : bytes) (n0 : byte) (new' : bytes).
Let old := h :: t.
Let new := n0 :: new'.
Hypothesis Hself : Forall (fun x => x <> h) t.
Hypothesis Hfresh : Forall (fun x => x <> h) new.
Hypothesis Hstraddle : Forall (fun x => x <> n0) t.

Lemma occurrences_skip_other (pre l : bytes) :
  Forall (fun x => x <> h) pre ->
  occurrences old (pre ++ l) = occurrences old l.
Proof.
  induction 1 as [|x pre Hx Hpre IH]; [reflexivity|].
  cbn [app occurrences]. rewrite IH. unfold old at 1. cbn [starts_with].
  destruct (Byte.eqb h x) eqn:E; [|reflexivity].
  apply Byte.byte_dec_bl in E. congruence.
Qed.

Lemma occurrences_hit (rest : bytes) :
  occurrences old (old ++ rest) = S (occurrences old rest).
Proof.
  pose proof (starts_with_app old rest) as Hhit.
  unfold old in Hhit |- * at 2. cbn [app occurrences] in Hhit |- *.
  fold old in Hhit |- *. rewrite Hhit.
  rewrite (occurrences_skip_other t rest Hself). reflexivity.
Qed.

Lemma starts_with_straddle (o pre X Y : bytes) :
  Forall (fun x => x <> n0) o ->
  starts_with o (pre ++ X) = false ->
  starts_with o (pre ++ n0 :: Y) = false.
Proof.
  intros Ho. revert pre. induction Ho as [|a o Ha Ho IH]; intros pre H.
  - destruct (pre ++ X); discriminate.
  - destruct pre as [|p pre]; cbn [app starts_with] in *.
    + destruct (Byte.eqb a n0) eqn:E; [|reflexivity].
      apply Byte.byte_dec_bl in E. congruence.
    + destruct (Byte.eqb a p); [|reflexivity]. cbn [andb] in *.
      apply IH. exact H.
Qed.

Lemma occurrences_before_hit (pre rest Y : bytes) :
  bytes_find old (pre ++ old ++ rest) = Some (length pre) ->
  occurrences old (pre ++ old ++ rest) = occurrences old (old ++ rest)
  /\ occurrences old (pre ++ new ++ Y) = occurrences old (new ++ Y).
Proof.
  induction pre as [|x pre IH]; intros F; [split; reflexivity|].
  cbn [app length bytes_find] in F.
  destruct (starts_with old (x :: pre ++ old ++ rest)) eqn:E;
    [discriminate|].
  destruct (bytes_find old (pre ++ old ++ rest)) as [k|] eqn:F';
    [|discriminate].
  injection F as ->. destruct (IH eq_refl) as [H1 H2].
  cbn [app occurrences]. rewrite E, H1, H2. split; [reflexivity|].
  replace (starts_with old (x :: pre ++ new ++ Y)) with false; [reflexivity|].
  symmetry. unfold old in E |- *. cbn [starts_with] in E |- *.
  destruct (Byte.eqb h x); [|reflexivity]. cbn [andb] in *.
  unfold new. cbn [app]. apply (starts_with_straddle t pre _ _ Hstraddle E).
Qed.

Lemma occurrences_bytes_replace (n : nat) (buf : bytes) :
  occurrences old (bytes_replace old new n buf)
  = (occurrences old buf - n)%nat.
Proof.
  revert buf. induction n as [|n IH]; intros buf; cbn [bytes_replace].
  - lia.
  - destruct (bytes_find old buf) as [k|] eqn:F.
    + pose proof (bytes_find_Some _ _ _ F) as Hsplit.
      pose proof (bytes_find_fits _ _ _ F) as Hfit.
      assert (Hk : length (take k buf) = k) by (rewrite length_take; lia).
      specialize (IH (drop (k + length old) buf)).
      revert F Hsplit Hk IH.
      generalize (take k buf) (drop (k + length old) buf).
      intros pre rest F Hsplit Hk IH. subst buf k.
      destruct (occurrences_before_hit pre rest
                  (bytes_replace old new n rest) F) as [H1 H2].
      rewrite H1, H2, occurrences_hit.
      rewrite (occurrences_skip_other new _ Hfresh), IH. reflexivity.
    + apply bytes_find_None in F. rewrite F. reflexivity.
Qed.

End Needle.

Lemma replace_band_limits_left (buffer : bytes) :
  occurrences band_150_170 (replace_band_limits buffer)
  = (occurrences band_150_170 buffer - 3)%nat.
Proof.
  apply occurrences_bytes_replace; repeat constructor; discriminate.
Qed.

(** X13: [replace_band_limits] removes the band limits at three offsets
    and creates none: the substituted buffer holds the old limits at three
    offsets fewer than the input, at none when the input held at most
    three. *)
Theorem replace_band_limits_remaining (buffer : bytes) :
  occurrences band_150_170 (replace_band_limits buffer)
  = (occurrences band_150_170 buffer - 3)%nat
  /\ ((occurrences band_150_170 buffer <= 3)%nat ->
      bytes_find band_150_170 (replace_band_limits buffer) = None).
Proof.
  assert (Hleft : occurrences band_150_170 (replace_band_limits buffer)
                  = (occurrences band_150_170 buffer - 3)%nat).
  { unfold replace_band_limits, band_150_170, band_144_164.
    apply occurrences_bytes_replace; repeat constructor; discriminate. }
  split; [exact Hleft|].
  intros Hle. apply bytes_find_None. rewrite Hleft. lia.
Qed.

(** ** The repair and byte patterns outside the text *)

Lemma perturb_outside (rest : bytes) (d : Z) :
  Forall anchor_byte rest ->
  Forall2 (same_outside outside_text_range) rest (perturb rest d).1.
Proof.
  intros Hrest. revert d.
  induction Hrest as [|b rest Hb Hrest IH]; intros d; simpl.
  - constructor.
  - destruct (d =? 0); [apply same_outside_refl|].
    destruct (byte_val b =? 32) eqn:Eb.
    + specialize (IH d). destruct (perturb rest d). simpl in *.
      constructor; [left; reflexivity | exact IH].
    + apply Z.eqb_neq in Eb. specialize (IH (d - change_for d)).
      destruct (perturb rest (d - change_for d)). simpl in *.
      constructor; [|exact IH].
      pose proof (anchor_byte_add b d Hb Eb) as Hv.
      pose proof (change_for_bounds d) as Hc.
      right. unfold outside_text_range, text_range.
      split; apply negb_false_iff, andb_true_iff.
      * destruct Hb as [Hb|Hb]; [contradiction|].
        split; apply Z.leb_le; lia.
      * rewrite byte_add_val by lia. split; apply Z.leb_le; lia.
Qed.

Lemma fixup_result_occurrences (needle buffer : bytes) (d : Z) :
  forallb outside_text_range needle = true ->
  occurrences needle (bytes_replace original (perturb original d).1 1 buffer)
  = occurrences needle buffer.
Proof.
  intros Hn. symmetry.
  apply (occurrences_same_outside outside_text_range); [exact Hn|].
  apply bytes_replace_same_outside, perturb_outside, original_anchor.
Qed.

(** X14: [fixup_checksum] creates and destroys no occurrence of a byte
    pattern made of bytes outside the range 32..122: the returned buffer
    holds such a pattern (the old band limits, for instance) at as many
    offsets as the input. *)
Theorem fixup_checksum_keeps_patterns (needle buffer : bytes) (t : Z) :
  forallb outside_text_range needle = true ->
  exists fixed : bytes,
    fixup_checksum buffer t = Ok fixed
    /\ occurrences needle fixed = occurrences needle buffer.
Proof.
  intros Hn. rewrite fixup_checksum_traverse. eexists.
  split; [reflexivity|]. symmetry.
  apply (occurrences_same_outside outside_text_range); [exact Hn|].
  apply bytes_replace_same_outside, perturb_outside, original_anchor.
Qed.

Lemma fixup_checksum_keeps_patterns_witness :
  exists fixed : bytes,
    fixup_checksum sample_mdf (checksum sample_mdf + 100) = Ok fixed
    /\ occurrences band_150_170 fixed = occurrences band_150_170 sample_mdf.
Proof.
  apply (fixup_checksum_keeps_patterns band_150_170
           sample_mdf (checksum sample_mdf + 100)).
  reflexivity.
Defined.

(** ** What a run writes, and a second run *)

Lemma main_written (os : os_env) (prog arg : string) (input : bytes)
      (dir name : string) (data : bytes) (ops : list fs_op) :
  files os (abspath os arg) = Some input ->
  fs_ops (main os [prog; arg]) = WriteTemp dir name data :: ops ->
  data = bytes_replace original
           (perturb original
              (checksum input - checksum (replace_band_limits input))).1
           1 (replace_band_limits input)
  /\ checksum data = checksum input.
Proof.
  intros Hfile Hops.
  pose proof (fixup_checksum_traverse (replace_band_limits input)
                (checksum input)) as Hfix.
  set (fixed := bytes_replace original _ 1 _) in *.
  destruct (Z.eq_dec (checksum fixed) (checksum input)) as [E|E].
  - rewrite (main_success os prog arg input fixed Hfile Hfix E) in Hops.
    cbn [fs_ops] in Hops. injection Hops as _ _ <- _.
    split; [reflexivity | exact E].
  - rewrite (main_mismatch os prog arg input fixed Hfile Hfix E) in Hops.
    discriminate.
Qed.





(** The image whose checksum is 0: the substitution lowers the byte sum by
    120, the script computes a difference of -65416, and the run fails
    although the copyright text could absorb 120. *)
Example run_sample_wrapping :
  checksum sample_wrapping - checksum (replace_band_limits sample_wrapping)
  = -65416
  /\ main (sample_os sample_wrapping) ["mdfham2m.py"; "SM50.MDF"]%string
     = {| status := Exit 3; fs_ops := [] |}.
Proof. split; vm_compute; reflexivity. Qed.
